(** * wayland-backend-sys, client/log_shim.c

    A model of [wl_log_trampoline_to_rust_client], the callback that libwayland
    calls with a printf-style format and a [va_list], and that hands the
    rendered text to the Rust logger [wl_log_rust_logger_client].

    The C library's [vsnprintf] is not part of the repository: it is taken as
    a parameter (class [Formatter]) with the contract of ISO C 7.21.6.5 and
    7.21.6.12 and of POSIX for a count that does not fit an [int], and
    instantiated further down by a small printf, [printf], on which the
    statements are evaluated. *)

From Stdlib Require Import ZArith Ascii String Bool Lia List Permutation.
From Stdlib Require Import Numbers.DecimalString.
Import ListNotations.

Open Scope char_scope.
Open Scope Z_scope.

(** ** Memory, C strings, variadic arguments *)

(** The bytes found at a pointer, from the pointed byte on. *)
Definition bytes := list ascii.

Definition NUL : ascii := Ascii.zero.

(** The string a [char const *] denotes: the bytes before the first NUL. *)
Fixpoint c_str (m : bytes) : bytes :=
  match m with
  | [] => []
  | c :: m' => if Ascii.eqb c NUL then [] else c :: c_str m'
  end.

(** A byte sequence without NUL: a C string's contents. *)
Definition nul_free (s : bytes) : bool :=
  forallb (fun c => negb (Ascii.eqb c NUL)) s.

(** [s] is an initial segment of [t]. *)
Definition prefix_of (s t : bytes) : Prop := exists rest, t = s ++ rest.

(** The values a [va_list] yields: an [int] (also what a [char] is promoted
    to) or a [char const *], given by the memory it points to. *)
Inductive va_arg : Type :=
| VInt (n : Z)
| VStr (p : bytes).

Definition va_list := list va_arg.

Definition INT_MAX : Z := 2147483647.
Definition INT_MIN : Z := -2147483648.

(** [char buffer[256]] *)
Definition BUFFER_SIZE : nat := 256.

(** ** The platform's formatter *)

(** [substitute fmt ap] is the fully substituted text the printf family
    makes of the format string [fmt] and the arguments [ap], or [None] when
    a conversion cannot be made; ordinary characters of the format are copied
    unchanged.  [stored_on_failure n fmt ap] is what [vsnprintf] has left in
    an array of [n] bytes when it fails: ISO C does not say what, but no more
    than [n] bytes are stored. *)
Class Formatter : Type := {
  substitute : bytes -> va_list -> option bytes;
  substitute_plain : forall fmt,
    ~ In "%" fmt -> substitute fmt [] = Some fmt;
  stored_on_failure : nat -> bytes -> va_list -> bytes;
  stored_on_failure_bound : forall n fmt ap,
    (length (stored_on_failure n fmt ap) <= n)%nat
}.

(** [format fmt ap] is the complete output when [vsnprintf] succeeds, or
    [None] when it fails (a negative return value).  An [int] counts the
    output: a substituted text of more than [INT_MAX] characters is the
    failure [EOVERFLOW]. *)
Definition format `{Formatter} (fmt : bytes) (ap : va_list) : option bytes :=
  match substitute fmt ap with
  | Some out => if Z.of_nat (length out) <=? INT_MAX then Some out else None
  | None => None
  end.

(** Storing [data] at the start of the array [buf]; a [data] longer than
    [buf] would run past its end, which shows as a longer result. *)
Definition store (buf data : bytes) : bytes :=
  data ++ skipn (length data) buf.

(** What [vsnprintf] puts in an array of [n] bytes for the complete output
    [out]: its first [n - 1] characters, then a NUL; nothing when [n = 0]. *)
Definition truncated (n : nat) (out : bytes) : bytes :=
  match n with
  | O => []
  | S m => firstn m out ++ [NUL]
  end.

(** The bytes [vsnprintf] stores in an array of [n] bytes. *)
Definition written `{Formatter} (n : nat) (fmt : bytes) (ap : va_list)
    : bytes :=
  match format (c_str fmt) ap with
  | Some out => truncated n out
  | None => stored_on_failure n (c_str fmt) ap
  end.

(** [int vsnprintf(char *buf, size_t n, char const *fmt, va_list ap)]:
    the array afterwards and the returned [int].  The count returned is that
    of the complete output, also when it did not fit; on failure the value is
    negative, and the array holds what had been stored by then. *)
Definition vsnprintf `{Formatter} (buf : bytes) (n : nat) (fmt : bytes)
    (ap : va_list) : bytes * Z :=
  match format (c_str fmt) ap with
  | Some out => (store buf (truncated n out), Z.of_nat (length out))
  | None => (store buf (stored_on_failure n (c_str fmt) ap), -1)
  end.

(** ** The logger on the Rust side *)

(** Which object a pointer handed to the logger designates: the caller's
    format string or the trampoline's local array. *)
Inductive pointer : Type :=
| to_fmt
| to_buffer.

(** One call of [wl_log_rust_logger_client(msg)]: the pointer passed and the
    memory found there at the time of the call. *)
Record sink_call : Type := {
  sink_ptr : pointer;
  sink_mem : bytes
}.

(** The message the logger reads. *)
Definition sink_msg (c : sink_call) : bytes := c_str (sink_mem c).

(** The calls the logger has received, oldest first. *)
Definition sink_log := list sink_call.

(** [void wl_log_rust_logger_client(char const *msg)] *)
Definition wl_log_rust_logger_client (p : pointer) (mem : bytes)
    (log : sink_log) : unit * sink_log :=
  (tt, log ++ [{| sink_ptr := p; sink_mem := mem |}]).

(** ** The trampoline *)

(** [void wl_log_trampoline_to_rust_client(char const *fmt, va_list list)].
    [stack] is what the uninitialised [buffer] holds on entry. *)
Definition wl_log_trampoline_to_rust_client `{Formatter} (stack : bytes)
    (fmt : bytes) (list : va_list) (log : sink_log) : unit * sink_log :=
  let buffer := stack in
  let '(buffer, ret) := vsnprintf buffer BUFFER_SIZE fmt list in
  if ret <=? 0 then
    wl_log_rust_logger_client to_fmt fmt log
  else
    wl_log_rust_logger_client to_buffer buffer log.

(** ** A printf for the conversions [%d %i %u %c %s %%] *)

Definition bytes_of_string (s : string) : bytes := list_ascii_of_string s.

Definition decimal (n : Z) : bytes :=
  bytes_of_string (NilZero.string_of_int (Z.to_int n)).

(** The [int] an argument is read as. *)
Definition as_int (n : Z) : Z := (n + 2 ^ 31) mod 2 ^ 32 - 2 ^ 31.

Definition as_unsigned (n : Z) : Z := n mod 2 ^ 32.

Definition as_uchar (n : Z) : ascii := ascii_of_N (Z.to_N (n mod 256)).

(** One conversion: its output and the arguments left; [None] for a
    specifier outside the fragment or an argument of the wrong kind. *)
Definition convert (spec : ascii) (ap : va_list) : option (bytes * va_list) :=
  if Ascii.eqb spec "%" then Some (["%"], ap)
  else if Ascii.eqb spec "d" || Ascii.eqb spec "i" then
    match ap with
    | VInt n :: ap' => Some (decimal (as_int n), ap')
    | _ => None
    end
  else if Ascii.eqb spec "u" then
    match ap with
    | VInt n :: ap' => Some (decimal (as_unsigned n), ap')
    | _ => None
    end
  else if Ascii.eqb spec "c" then
    match ap with
    | VInt n :: ap' => Some ([as_uchar n], ap')
    | _ => None
    end
  else if Ascii.eqb spec "s" then
    match ap with
    | VStr p :: ap' => Some (c_str p, ap')
    | _ => None
    end
  else None.

Fixpoint render (fmt : bytes) (ap : va_list) : option bytes :=
  match fmt with
  | [] => Some []
  | c :: fmt' =>
      if Ascii.eqb c "%" then
        match fmt' with
        | [] => None
        | spec :: rest =>
            match convert spec ap with
            | Some (text, ap') => option_map (app text) (render rest ap')
            | None => None
            end
        end
      else option_map (cons c) (render fmt' ap)
  end.

(** The count is an [int]: longer output is the error [EOVERFLOW]. *)
Definition printf (fmt : bytes) (ap : va_list) : option bytes :=
  match render fmt ap with
  | Some out => if Z.of_nat (length out) <=? INT_MAX then Some out else None
  | None => None
  end.

(** The output made before the conversion that fails, all of it when none
    does. *)
Fixpoint rendered_so_far (fmt : bytes) (ap : va_list) : bytes :=
  match fmt with
  | [] => []
  | c :: fmt' =>
      if Ascii.eqb c "%" then
        match fmt' with
        | [] => []
        | spec :: rest =>
            match convert spec ap with
            | Some (text, ap') => text ++ rendered_so_far rest ap'
            | None => []
            end
        end
      else c :: rendered_so_far fmt' ap
  end.

(** On failure the array holds the start of that output and a NUL. *)
Definition printf_stored_on_failure (n : nat) (fmt : bytes) (ap : va_list)
    : bytes :=
  truncated n (rendered_so_far fmt ap).

(** ** Concurrent invocations

    Each invocation has its own [buffer] and [ret] (automatic storage); the
    logger's record is the one thing they share, and a call of the logger is
    one step.  An invocation takes two steps: the call of [vsnprintf], then
    the branch with its call of the logger. *)

Inductive location : Type :=
| at_entry
| at_branch
| returned.

(** The arguments of one invocation, with what its [buffer] holds on entry. *)
Record activation : Type := {
  act_stack : bytes;
  act_fmt : bytes;
  act_list : va_list
}.

Record invocation : Type := {
  inv_args : activation;
  inv_pc : location;
  inv_buffer : bytes;
  inv_ret : Z
}.

Definition enter (a : activation) : invocation :=
  {| inv_args := a; inv_pc := at_entry; inv_buffer := act_stack a; inv_ret := 0 |}.

Definition is_returned (t : invocation) : bool :=
  match inv_pc t with
  | returned => true
  | _ => false
  end.

(** One step of an invocation; one that has returned stays as it is. *)
Definition thread_step `{Formatter} (t : invocation) (log : sink_log)
    : invocation * sink_log :=
  match inv_pc t with
  | at_entry =>
      let '(buffer, ret) :=
        vsnprintf (inv_buffer t) BUFFER_SIZE (act_fmt (inv_args t))
          (act_list (inv_args t)) in
      ({| inv_args := inv_args t; inv_pc := at_branch;
          inv_buffer := buffer; inv_ret := ret |}, log)
  | at_branch =>
      ({| inv_args := inv_args t; inv_pc := returned;
          inv_buffer := inv_buffer t; inv_ret := inv_ret t |},
       snd (if inv_ret t <=? 0 then
              wl_log_rust_logger_client to_fmt (act_fmt (inv_args t)) log
            else
              wl_log_rust_logger_client to_buffer (inv_buffer t) log))
  | returned => (t, log)
  end.

(** The [i]-th invocation takes a step (none when there is no such one). *)
Fixpoint step_at `{Formatter} (i : nat) (ts : list invocation) (log : sink_log)
    {struct ts} : list invocation * sink_log :=
  match ts with
  | [] => ([], log)
  | t :: ts' =>
      match i with
      | O => let '(t', log') := thread_step t log in (t' :: ts', log')
      | S j => let '(ts'', log') := step_at j ts' log in (t :: ts'', log')
      end
  end.

(** A schedule names the invocation that moves at each step. *)
Fixpoint run_schedule `{Formatter} (schedule : list nat)
    (ts : list invocation) (log : sink_log) : list invocation * sink_log :=
  match schedule with
  | [] => (ts, log)
  | i :: schedule' =>
      let '(ts', log') := step_at i ts log in run_schedule schedule' ts' log'
  end.

(** The schedule that lets the invocations [first], [first + 1], ... run to
    their end, one after the other. *)
Fixpoint in_turn (first count : nat) : list nat :=
  match count with
  | O => []
  | S count' => first :: first :: in_turn (S first) count'
  end.

(** The invocations made one after the other, in the order of the list. *)
Definition sequential `{Formatter} (calls : list activation) (log : sink_log)
    : sink_log :=
  fold_left
    (fun log a =>
       snd (wl_log_trampoline_to_rust_client (act_stack a) (act_fmt a)
              (act_list a) log))
    calls log.

(** What the logger receives from an invocation that runs alone. *)
Definition alone `{Formatter} (a : activation) : sink_log :=
  snd (wl_log_trampoline_to_rust_client (act_stack a) (act_fmt a)
         (act_list a) []).

(** The invocations that have returned, by their arguments. *)
Definition finished (ts : list invocation) : list activation :=
  map inv_args (filter is_returned ts).

(** What an invocation's own variables hold at each of its locations. *)
Definition thread_ok `{Formatter} (t : invocation) : Prop :=
  match inv_pc t with
  | at_entry => inv_buffer t = act_stack (inv_args t)
  | _ =>
      (inv_buffer t, inv_ret t) =
      vsnprintf (act_stack (inv_args t)) BUFFER_SIZE (act_fmt (inv_args t))
        (act_list (inv_args t))
  end.

(** ** Inputs on which the statements are evaluated *)

(** Some contents for the array on entry. *)
Definition garbage : bytes := repeat "x" 256.

Definition value_fmt : bytes := bytes_of_string "value=%d".
Definition plain_fmt : bytes := bytes_of_string "no args here".
Definition string_fmt : bytes := bytes_of_string "%s".
Definition long_text : bytes := repeat "a" 300.
Definition long_fmt : bytes := repeat "a" 256.

Definition nul_fmt : bytes := bytes_of_string "a%cb".
Definition nul_string_fmt : bytes := bytes_of_string "%c%s".

(** A string of [INT_MAX + 1] letters. *)
Definition huge_text : bytes := repeat "a" (Z.to_nat (INT_MAX + 1)).

(** The messages an invocation makes the logger read. *)
Definition messages `{Formatter} (fmt : bytes) (ap : va_list) : list bytes :=
  map sink_msg (snd (wl_log_trampoline_to_rust_client garbage fmt ap [])).

(** Two invocations whose steps alternate. *)
Definition two_calls : list activation :=
  [ {| act_stack := garbage; act_fmt := value_fmt; act_list := [VInt 42] |};
    {| act_stack := garbage; act_fmt := plain_fmt; act_list := [] |} ].

(** ** C strings *)

Lemma c_str_app_NUL (s rest : bytes) : c_str (s ++ NUL :: rest) = c_str s.
Proof.
  induction s as [|c s IH]; simpl.
  - reflexivity.
  - destruct (Ascii.eqb c NUL); [reflexivity | now rewrite IH].
Qed.

Lemma c_str_nul_free (s : bytes) : nul_free s = true -> c_str s = s.
Proof.
  induction s as [|c s IH]; simpl; intros Hs.
  - reflexivity.
  - apply andb_true_iff in Hs as [Hc Hs].
    apply negb_true_iff in Hc. rewrite Hc. now rewrite IH.
Qed.

Lemma nul_free_c_str (m : bytes) : nul_free (c_str m) = true.
Proof.
  induction m as [|c m IH]; simpl.
  - reflexivity.
  - destruct (Ascii.eqb c NUL) eqn:Hc; simpl.
    + reflexivity.
    + now rewrite Hc, IH.
Qed.

Lemma c_str_idempotent (m : bytes) : c_str (c_str m) = c_str m.
Proof. apply c_str_nul_free, nul_free_c_str. Qed.

Lemma c_str_length (m : bytes) : (length (c_str m) <= length m)%nat.
Proof.
  induction m as [|c m IH]; simpl.
  - lia.
  - destruct (Ascii.eqb c NUL); simpl; lia.
Qed.

(** The byte that ends the string, when the memory holds one. *)
Lemma c_str_terminator (s rest : bytes) :
  nth_error (s ++ NUL :: rest) (length (c_str (s ++ NUL :: rest))) = Some NUL.
Proof.
  induction s as [|c s IH]; simpl.
  - reflexivity.
  - destruct (Ascii.eqb c NUL) eqn:Hc; simpl.
    + apply Ascii.eqb_eq in Hc. now subst.
    + exact IH.
Qed.

Lemma nul_free_firstn (n : nat) (s : bytes) :
  nul_free s = true -> nul_free (firstn n s) = true.
Proof.
  revert n. induction s as [|c s IH]; intros [|n]; simpl; trivial.
  intros Hs. apply andb_true_iff in Hs as [Hc Hs].
  rewrite Hc. simpl. now apply IH.
Qed.

(** ** The array after [vsnprintf] *)

Lemma truncated_length (n : nat) (out : bytes) :
  (length (truncated n out) <= n)%nat.
Proof.
  destruct n as [|m]; simpl.
  - lia.
  - rewrite length_app, length_firstn. simpl. lia.
Qed.

Lemma store_length (buf data : bytes) :
  (length data <= length buf)%nat -> length (store buf data) = length buf.
Proof.
  intros Hle. unfold store. rewrite length_app, length_skipn. lia.
Qed.

Lemma store_truncated (buf : bytes) (m : nat) (out : bytes) :
  store buf (truncated (S m) out) =
  firstn m out ++ NUL :: skipn (length (firstn m out ++ [NUL])) buf.
Proof. unfold store. simpl. now rewrite <- app_assoc. Qed.

Lemma c_str_store_truncated (buf : bytes) (m : nat) (out : bytes) :
  c_str (store buf (truncated (S m) out)) = c_str (firstn m out).
Proof. rewrite store_truncated. apply c_str_app_NUL. Qed.

Lemma firstn_short (n : nat) (s : bytes) :
  (length s <= n)%nat -> firstn n s = s.
Proof. apply firstn_all2. Qed.

(** ** [printf] is a formatter *)

Lemma render_plain (fmt : bytes) : ~ In "%" fmt -> render fmt [] = Some fmt.
Proof.
  induction fmt as [|c fmt IH]; simpl; intros Hno.
  - reflexivity.
  - destruct (Ascii.eqb c "%") eqn:Hc.
    + apply Ascii.eqb_eq in Hc. subst. exfalso. apply Hno. now left.
    + rewrite IH; [reflexivity | intros Hin; apply Hno; now right].
Qed.

Lemma printf_stored_on_failure_bound (n : nat) (fmt : bytes) (ap : va_list) :
  (length (printf_stored_on_failure n fmt ap) <= n)%nat.
Proof. apply truncated_length. Qed.

#[export] Instance printf_formatter : Formatter := {|
  substitute := render;
  substitute_plain := render_plain;
  stored_on_failure := printf_stored_on_failure;
  stored_on_failure_bound := printf_stored_on_failure_bound
|}.

(** What [vsnprintf] returns with this instance is [printf]. *)
Lemma format_printf (fmt : bytes) (ap : va_list) : format fmt ap = printf fmt ap.
Proof. reflexivity. Qed.

(** ** The trampoline, for any formatter *)

Section Trampoline.

Context {F : Formatter}.

(** A substituted text that an [int] can count is the output. *)
Lemma format_fits (fmt : bytes) (ap : va_list) (out : bytes) :
  substitute fmt ap = Some out ->
  Z.of_nat (length out) <= INT_MAX ->
  format fmt ap = Some out.
Proof.
  intros Hs Hlen. unfold format. rewrite Hs.
  apply Z.leb_le in Hlen. now rewrite Hlen.
Qed.

(** One that it cannot count is a failure. *)
Lemma format_overflow (fmt : bytes) (ap : va_list) (out : bytes) :
  substitute fmt ap = Some out ->
  INT_MAX < Z.of_nat (length out) ->
  format fmt ap = None.
Proof.
  intros Hs Hlen. unfold format. rewrite Hs.
  apply Z.leb_gt in Hlen. now rewrite Hlen.
Qed.

Lemma format_substitute (fmt : bytes) (ap : va_list) (out : bytes) :
  format fmt ap = Some out ->
  substitute fmt ap = Some out /\ Z.of_nat (length out) <= INT_MAX.
Proof.
  unfold format. destruct (substitute fmt ap) as [o|]; [|discriminate].
  destruct (Z.of_nat (length o) <=? INT_MAX) eqn:Hle; [|discriminate].
  intros Heq. injection Heq as <-. split; [reflexivity | now apply Z.leb_le].
Qed.

Lemma format_plain (fmt : bytes) :
  ~ In "%" fmt -> Z.of_nat (length fmt) <= INT_MAX -> format fmt [] = Some fmt.
Proof. intros Hno Hlen. apply format_fits; [now apply substitute_plain | exact Hlen]. Qed.

Lemma format_int (fmt : bytes) (ap : va_list) (out : bytes) :
  format fmt ap = Some out -> Z.of_nat (length out) <= INT_MAX.
Proof. intros Hf. now apply format_substitute in Hf. Qed.

Lemma vsnprintf_failed (buf : bytes) (n : nat) (fmt : bytes) (ap : va_list) :
  format (c_str fmt) ap = None ->
  vsnprintf buf n fmt ap = (store buf (stored_on_failure n (c_str fmt) ap), -1).
Proof. intros Hf. unfold vsnprintf. now rewrite Hf. Qed.

Lemma vsnprintf_written (buf : bytes) (n : nat) (fmt : bytes) (ap : va_list) :
  fst (vsnprintf buf n fmt ap) = store buf (written n fmt ap).
Proof.
  unfold vsnprintf, written. now destruct (format (c_str fmt) ap).
Qed.

(** Never more than the [n] bytes of the array. *)
Lemma written_length (n : nat) (fmt : bytes) (ap : va_list) :
  (length (written n fmt ap) <= n)%nat.
Proof.
  unfold written. destruct (format (c_str fmt) ap).
  - apply truncated_length.
  - apply stored_on_failure_bound.
Qed.

Lemma vsnprintf_rendered (buf : bytes) (n : nat) (fmt : bytes) (ap : va_list)
    (out : bytes) :
  format (c_str fmt) ap = Some out ->
  vsnprintf buf n fmt ap = (store buf (truncated n out), Z.of_nat (length out)).
Proof. intros Hf. unfold vsnprintf. now rewrite Hf. Qed.

(** The value returned fits the [int] it is assigned to. *)
Lemma vsnprintf_ret_int (buf : bytes) (n : nat) (fmt : bytes) (ap : va_list) :
  INT_MIN <= snd (vsnprintf buf n fmt ap) <= INT_MAX.
Proof.
  unfold vsnprintf. destruct (format (c_str fmt) ap) as [out|] eqn:Hf; simpl.
  - apply format_int in Hf. unfold INT_MIN. lia.
  - unfold INT_MIN, INT_MAX. lia.
Qed.

(** The value returned is positive exactly when there is output, and it is
    not empty. *)
Lemma vsnprintf_positive (buf : bytes) (n : nat) (fmt : bytes) (ap : va_list) :
  0 < snd (vsnprintf buf n fmt ap) <->
  exists out, format (c_str fmt) ap = Some out /\ out <> [].
Proof.
  unfold vsnprintf. destruct (format (c_str fmt) ap) as [out|]; simpl; split.
  - intros Hpos. exists out. split; [reflexivity|].
    intros ->. simpl in Hpos. lia.
  - intros (o & Ho & Hne). injection Ho as <-.
    destruct out; [contradiction | simpl length; lia].
  - lia.
  - intros (o & Ho & _). discriminate.
Qed.

(** The two branches. *)
Lemma trampoline_fallback (stack fmt : bytes) (ap : va_list) (log : sink_log) :
  snd (vsnprintf stack BUFFER_SIZE fmt ap) <= 0 ->
  wl_log_trampoline_to_rust_client stack fmt ap log =
  (tt, log ++ [{| sink_ptr := to_fmt; sink_mem := fmt |}]).
Proof.
  intros Hret. unfold wl_log_trampoline_to_rust_client.
  destruct (vsnprintf stack BUFFER_SIZE fmt ap) as [buffer ret]; simpl in Hret.
  apply Z.leb_le in Hret. now rewrite Hret.
Qed.

Lemma trampoline_forward (stack fmt : bytes) (ap : va_list) (log : sink_log) :
  0 < snd (vsnprintf stack BUFFER_SIZE fmt ap) ->
  wl_log_trampoline_to_rust_client stack fmt ap log =
  (tt, log ++ [{| sink_ptr := to_buffer;
                  sink_mem := fst (vsnprintf stack BUFFER_SIZE fmt ap) |}]).
Proof.
  intros Hret. unfold wl_log_trampoline_to_rust_client.
  destruct (vsnprintf stack BUFFER_SIZE fmt ap) as [buffer ret]; simpl in *.
  apply Z.leb_gt in Hret. now rewrite Hret.
Qed.

(** The call made when the output [out] is not empty: the logger is given
    the array, which holds the first 255 characters of [out] and a NUL. *)
Lemma trampoline_rendered (stack fmt : bytes) (ap : va_list) (log : sink_log)
    (out : bytes) :
  format (c_str fmt) ap = Some out ->
  out <> [] ->
  wl_log_trampoline_to_rust_client stack fmt ap log =
  (tt, log ++ [{| sink_ptr := to_buffer;
                  sink_mem := store stack (truncated BUFFER_SIZE out) |}]).
Proof.
  intros Hf Hne. rewrite trampoline_forward.
  - now rewrite (vsnprintf_rendered _ _ _ _ _ Hf).
  - apply vsnprintf_positive. now exists out.
Qed.

(** The call made when there is no output, or an empty one. *)
Lemma trampoline_not_rendered (stack fmt : bytes) (ap : va_list)
    (log : sink_log) :
  format (c_str fmt) ap = None \/ format (c_str fmt) ap = Some [] ->
  wl_log_trampoline_to_rust_client stack fmt ap log =
  (tt, log ++ [{| sink_ptr := to_fmt; sink_mem := fmt |}]).
Proof.
  intros Hf. apply trampoline_fallback.
  destruct Hf as [Hf | Hf].
  - rewrite (vsnprintf_failed _ _ _ _ Hf). cbn [snd]. lia.
  - rewrite (vsnprintf_rendered _ _ _ _ _ Hf). simpl. lia.
Qed.

(** The message read from the array does not depend on what the array held
    before. *)
Lemma rendered_message (stack out : bytes) :
  sink_msg {| sink_ptr := to_buffer;
              sink_mem := store stack (truncated BUFFER_SIZE out) |} =
  c_str (firstn 255 out).
Proof. exact (c_str_store_truncated stack 255 out). Qed.

Lemma truncated_fits (out : bytes) :
  (length out <= 255)%nat -> truncated BUFFER_SIZE out = out ++ [NUL].
Proof.
  intros Hlen. change (truncated BUFFER_SIZE out) with (firstn 255 out ++ [NUL]).
  now rewrite firstn_short.
Qed.

Lemma store_prefix (buf data : bytes) : prefix_of data (store buf data).
Proof. now exists (skipn (length data) buf). Qed.

Lemma firstn_prefix (n : nat) (s : bytes) : prefix_of (firstn n s) s.
Proof. exists (skipn n s). symmetry. apply firstn_skipn. Qed.

(** *** Output that fits *)

(** C1, as amended: when the fully substituted text has between 1 and 255
    characters and no NUL byte among them, the logger is called with the
    local array, which holds that text followed by a NUL, and the message it
    reads is exactly that text. *)
Theorem substituted_result_delivered (stack fmt : bytes) (ap : va_list)
    (log : sink_log) (out : bytes) :
  substitute (c_str fmt) ap = Some out ->
  (1 <= length out <= 255)%nat ->
  nul_free out = true ->
  exists call,
    wl_log_trampoline_to_rust_client stack fmt ap log = (tt, log ++ [call]) /\
    sink_ptr call = to_buffer /\
    prefix_of (out ++ [NUL]) (sink_mem call) /\
    sink_msg call = out.
Proof.
  intros Hs [Hpos Hfit] Hfree.
  assert (Hf : format (c_str fmt) ap = Some out)
    by (apply format_fits; [exact Hs | unfold INT_MAX; lia]).
  assert (Hne : out <> []) by (intros ->; simpl in Hpos; lia).
  eexists. split; [apply (trampoline_rendered _ _ _ _ _ Hf Hne)|].
  repeat split.
  - cbn [sink_mem]. rewrite <- (truncated_fits out Hfit). apply store_prefix.
  - rewrite rendered_message, firstn_short by exact Hfit.
    now apply c_str_nul_free.
Qed.

(** *** The test on the returned value *)

(** C2: formatting counts as failed exactly when [vsnprintf] returns a value
    that is not positive; then, and only then, the logger is handed the
    pointer [fmt] it was called with, so it reads the format string as it
    is; otherwise it is handed the array [vsnprintf] filled. *)
Theorem fallback_iff_not_positive (stack fmt : bytes) (ap : va_list)
    (log : sink_log) :
  let buffer := fst (vsnprintf stack BUFFER_SIZE fmt ap) in
  let ret := snd (vsnprintf stack BUFFER_SIZE fmt ap) in
  exists call,
    wl_log_trampoline_to_rust_client stack fmt ap log = (tt, log ++ [call]) /\
    (sink_ptr call = to_fmt <-> ret <= 0) /\
    (sink_ptr call = to_buffer <-> 0 < ret) /\
    (ret <= 0 -> sink_mem call = fmt /\ sink_msg call = c_str fmt) /\
    (0 < ret -> sink_mem call = buffer).
Proof.
  intros buffer ret.
  destruct (Z_le_gt_dec ret 0) as [Hle | Hgt].
  - eexists. split; [apply trampoline_fallback; exact Hle|].
    cbn [sink_ptr sink_mem sink_msg].
    repeat split; intros; try assumption; try discriminate; lia.
  - apply Z.gt_lt in Hgt.
    eexists. split; [apply trampoline_forward; exact Hgt|].
    cbn [sink_ptr sink_mem sink_msg].
    repeat split; intros; try assumption; try discriminate; lia.
Qed.

(** *** Output that does not fit *)

(** C3, as amended: when the fully substituted text has more than 255
    characters, no more than [INT_MAX], so that [vsnprintf] can return their
    number, and no NUL byte among the first 255, [vsnprintf] returns a
    positive value, the fallback is not taken, and the logger is called with
    the array, which holds the first 255 characters of the text followed by
    a NUL: the message read is that prefix, of exactly 255 characters. *)
Theorem truncation_is_not_failure (stack fmt : bytes) (ap : va_list)
    (log : sink_log) (out : bytes) :
  substitute (c_str fmt) ap = Some out ->
  (255 < length out)%nat ->
  Z.of_nat (length out) <= INT_MAX ->
  nul_free (firstn 255 out) = true ->
  exists call,
    wl_log_trampoline_to_rust_client stack fmt ap log = (tt, log ++ [call]) /\
    0 < snd (vsnprintf stack BUFFER_SIZE fmt ap) /\
    sink_ptr call = to_buffer /\
    prefix_of (firstn 255 out ++ [NUL]) (sink_mem call) /\
    sink_msg call = firstn 255 out /\
    prefix_of (sink_msg call) out /\
    length (sink_msg call) = 255%nat.
Proof.
  intros Hs Hlong Hint Hfree.
  assert (Hf : format (c_str fmt) ap = Some out)
    by (apply format_fits; assumption).
  assert (Hne : out <> []) by (intros ->; simpl in Hlong; lia).
  eexists. split; [apply (trampoline_rendered _ _ _ _ _ Hf Hne)|].
  rewrite rendered_message, (c_str_nul_free _ Hfree). cbn [sink_ptr sink_mem].
  split; [apply vsnprintf_positive; now exists out|].
  split; [reflexivity|].
  split; [apply store_prefix|].
  split; [reflexivity|].
  split; [apply firstn_prefix|].
  rewrite length_firstn. lia.
Qed.

(** *** No failure reaches the caller *)

(** C4: the trampoline returns to its caller whatever the formatter did, and
    the logger has then been given a string; when [vsnprintf] returned a
    value that is not positive, the one failure there is, that string is the
    format string, and nothing else shows it. *)
Theorem trampoline_never_fails (stack fmt : bytes) (ap : va_list)
    (log : sink_log) :
  fst (wl_log_trampoline_to_rust_client stack fmt ap log) = tt /\
  exists call,
    snd (wl_log_trampoline_to_rust_client stack fmt ap log) = log ++ [call] /\
    (snd (vsnprintf stack BUFFER_SIZE fmt ap) <= 0 ->
     call = {| sink_ptr := to_fmt; sink_mem := fmt |}) /\
    (format (c_str fmt) ap = None -> sink_msg call = c_str fmt).
Proof.
  destruct (Z_le_gt_dec (snd (vsnprintf stack BUFFER_SIZE fmt ap)) 0)
    as [Hle | Hgt].
  - rewrite (trampoline_fallback _ _ _ _ Hle). split; [reflexivity|].
    eexists. split; [reflexivity|]. split; reflexivity.
  - rewrite (trampoline_forward _ _ _ _ (Z.gt_lt _ _ Hgt)).
    split; [reflexivity|].
    eexists. split; [reflexivity|]. split.
    + lia.
    + intros Hf. rewrite (vsnprintf_failed _ _ _ _ Hf) in Hgt.
      cbn [snd] in Hgt. lia.
Qed.

(** *** Formats without conversions *)

(** C5, as amended: a format string of at most 255 characters that has no
    [%] in it, passed with no arguments, is the message the logger reads. *)
Theorem plain_format_verbatim (stack fmt : bytes) (log : sink_log) :
  ~ In "%" (c_str fmt) ->
  (length (c_str fmt) <= 255)%nat ->
  exists call,
    wl_log_trampoline_to_rust_client stack fmt [] log = (tt, log ++ [call]) /\
    sink_msg call = c_str fmt.
Proof.
  intros Hplain Hfit.
  assert (Hf : format (c_str fmt) [] = Some (c_str fmt)).
  { apply format_plain; [exact Hplain | unfold INT_MAX; lia]. }
  destruct (c_str fmt) as [|c s] eqn:Hs.
  - eexists. split; [apply trampoline_not_rendered; right|].
    + now rewrite Hs.
    + unfold sink_msg. cbn [sink_mem]. exact Hs.
  - eexists. split; [apply (trampoline_rendered _ fmt [] _ (c :: s))|].
    + now rewrite Hs.
    + discriminate.
    + rewrite rendered_message, firstn_short by exact Hfit.
      rewrite <- Hs. apply c_str_idempotent.
Qed.

(** *** Empty output *)

(** C6: when the substituted result is the empty string, [vsnprintf]
    returns 0, the trampoline takes the branch of the failure, and the
    logger is handed the pointer [fmt]: it reads the format string, not the
    empty result. *)
Theorem empty_result_takes_fallback (stack fmt : bytes) (ap : va_list)
    (log : sink_log) :
  format (c_str fmt) ap = Some [] ->
  snd (vsnprintf stack BUFFER_SIZE fmt ap) = 0 /\
  exists call,
    wl_log_trampoline_to_rust_client stack fmt ap log = (tt, log ++ [call]) /\
    sink_ptr call = to_fmt /\
    sink_mem call = fmt /\
    sink_msg call = c_str fmt.
Proof.
  intros Hf. split.
  - now rewrite (vsnprintf_rendered _ _ _ _ _ Hf).
  - eexists. split; [apply trampoline_not_rendered; now right|].
    repeat split.
Qed.

(** *** The array *)

(** C7: whether it succeeds or fails, [vsnprintf] stores at most 256 bytes,
    the NUL included, in the array of 256 bytes, which keeps its size:
    nothing is stored past its end; and when the returned value is positive,
    the array handed to the logger has a NUL among its 256 bytes, where the
    message ends. *)
Theorem rendering_stays_in_buffer (stack fmt : bytes) (ap : va_list)
    (log : sink_log) :
  length stack = BUFFER_SIZE ->
  let buffer := fst (vsnprintf stack BUFFER_SIZE fmt ap) in
  let ret := snd (vsnprintf stack BUFFER_SIZE fmt ap) in
  buffer = store stack (written BUFFER_SIZE fmt ap) /\
  (length (written BUFFER_SIZE fmt ap) <= BUFFER_SIZE)%nat /\
  length buffer = BUFFER_SIZE /\
  (forall out, format (c_str fmt) ap = Some out ->
     written BUFFER_SIZE fmt ap = firstn 255 out ++ [NUL]) /\
  (0 < ret ->
     wl_log_trampoline_to_rust_client stack fmt ap log =
       (tt, log ++ [{| sink_ptr := to_buffer; sink_mem := buffer |}]) /\
     (length (c_str buffer) < BUFFER_SIZE)%nat /\
     nth_error buffer (length (c_str buffer)) = Some NUL).
Proof.
  intros Hsize buffer ret. subst buffer ret.
  pose proof (written_length BUFFER_SIZE fmt ap) as Hlen.
  split; [apply vsnprintf_written|].
  split; [exact Hlen|].
  split; [rewrite vsnprintf_written, store_length; lia|].
  split.
  { intros out Hf. unfold written. now rewrite Hf. }
  intros Hpos.
  split; [now apply trampoline_forward|].
  apply vsnprintf_positive in Hpos as (out & Hf & _).
  rewrite (vsnprintf_rendered _ _ _ _ _ Hf). cbn [fst].
  change (truncated BUFFER_SIZE out) with (truncated (S 255) out).
  rewrite store_truncated. split.
  - rewrite c_str_app_NUL.
    pose proof (c_str_length (firstn 255 out)) as Hc.
    pose proof (length_firstn 255 out) as Hn.
    unfold BUFFER_SIZE. lia.
  - apply c_str_terminator.
Qed.

(** *** One call of the logger *)

(** C8: the logger is called exactly once by an invocation, whether the
    formatting succeeded or not: its record grows by one call, and the calls
    it held before are kept as they were. *)
Theorem sink_called_exactly_once (stack fmt : bytes) (ap : va_list)
    (log : sink_log) :
  let after := snd (wl_log_trampoline_to_rust_client stack fmt ap log) in
  length after = S (length log) /\
  firstn (length log) after = log /\
  exists! call, after = log ++ [call].
Proof.
  intros after. subst after.
  assert (Hcall : exists call,
    snd (wl_log_trampoline_to_rust_client stack fmt ap log) = log ++ [call]).
  { destruct (Z_le_gt_dec (snd (vsnprintf stack BUFFER_SIZE fmt ap)) 0)
      as [Hle | Hgt].
    - rewrite (trampoline_fallback _ _ _ _ Hle). now eexists.
    - rewrite (trampoline_forward _ _ _ _ (Z.gt_lt _ _ Hgt)). now eexists. }
  destruct Hcall as [call ->].
  split; [rewrite length_app; simpl; lia|].
  split.
  - rewrite firstn_app, Nat.sub_diag, firstn_all. simpl. apply app_nil_r.
  - exists call. split; [reflexivity|].
    intros call' Heq. apply app_inv_head in Heq. now injection Heq.
Qed.

(** *** Determinism *)


End Trampoline.

(** ** Invocations that run at the same time *)

Section Concurrency.

Context {F : Formatter}.

Lemma trampoline_appends (stack fmt : bytes) (ap : va_list) (log : sink_log) :
  snd (wl_log_trampoline_to_rust_client stack fmt ap log) =
  log ++ snd (wl_log_trampoline_to_rust_client stack fmt ap []).
Proof.
  unfold wl_log_trampoline_to_rust_client.
  destruct (vsnprintf stack BUFFER_SIZE fmt ap) as [buffer ret].
  now destruct (ret <=? 0).
Qed.

Lemma sequential_alone (calls : list activation) (log : sink_log) :
  sequential calls log = log ++ flat_map alone calls.
Proof.
  unfold sequential. revert log.
  induction calls as [|a calls IH]; intros log; simpl.
  - now rewrite app_nil_r.
  - rewrite IH, trampoline_appends. now rewrite <- app_assoc.
Qed.

Lemma sequential_snoc (calls : list activation) (a : activation)
    (log : sink_log) :
  sequential (calls ++ [a]) log =
  snd (wl_log_trampoline_to_rust_client (act_stack a) (act_fmt a)
         (act_list a) (sequential calls log)).
Proof. unfold sequential. now rewrite fold_left_app. Qed.

Lemma enter_ok (a : activation) : thread_ok (enter a).
Proof. reflexivity. Qed.

Lemma finished_enter (calls : list activation) :
  finished (map enter calls) = [].
Proof. induction calls as [|a calls IH]; [reflexivity | exact IH]. Qed.

Lemma finished_all (ts : list invocation) :
  forallb is_returned ts = true -> finished ts = map inv_args ts.
Proof.
  unfold finished. induction ts as [|t ts IH]; simpl; intros Hall.
  - reflexivity.
  - apply andb_true_iff in Hall as [Ht Hts]. rewrite Ht. simpl.
    now rewrite IH.
Qed.

(** One step of an invocation keeps its arguments and what its variables
    hold; the logger's record changes only at the step that returns, by
    what the trampoline adds to it. *)
Lemma thread_step_spec (t : invocation) (log : sink_log) :
  thread_ok t ->
  let t' := fst (thread_step t log) in
  let log' := snd (thread_step t log) in
  thread_ok t' /\
  inv_args t' = inv_args t /\
  ((is_returned t' = is_returned t /\ log' = log) \/
   (is_returned t = false /\ is_returned t' = true /\
    log' = snd (wl_log_trampoline_to_rust_client (act_stack (inv_args t))
                  (act_fmt (inv_args t)) (act_list (inv_args t)) log))).
Proof.
  destruct t as [a pc buffer ret]. unfold thread_ok, thread_step, is_returned.
  cbn [inv_pc inv_args inv_buffer inv_ret].
  destruct pc; intros Hok.
  - subst buffer.
    destruct (vsnprintf (act_stack a) BUFFER_SIZE (act_fmt a) (act_list a))
      as [buffer' ret'] eqn:Hv.
    cbn. split; [now rewrite Hv|]. split; [reflexivity|]. now left.
  - cbn. split; [exact Hok|]. split; [reflexivity|]. right.
    split; [reflexivity|]. split; [reflexivity|].
    unfold wl_log_trampoline_to_rust_client. now rewrite <- Hok.
  - cbn. split; [exact Hok|]. split; [reflexivity|]. now left.
Qed.

(** A step of one invocation leaves the variables of the others as they
    were. *)
Lemma step_at_frame (i j : nat) (ts : list invocation) (log : sink_log) :
  i <> j -> nth_error (fst (step_at i ts log)) j = nth_error ts j.
Proof.
  revert i j. induction ts as [|t ts IH]; intros i j Hij; simpl.
  - reflexivity.
  - destruct i as [|i].
    + destruct (thread_step t log) as [t' log'].
      destruct j as [|j]; [contradiction | reflexivity].
    + specialize (IH i). destruct (step_at i ts log) as [ts' log'].
      destruct j as [|j]; [reflexivity|].
      simpl in *. apply IH. intros ->. now apply Hij.
Qed.

Lemma step_at_spec (i : nat) (ts : list invocation) (log : sink_log) :
  Forall thread_ok ts ->
  let ts' := fst (step_at i ts log) in
  let log' := snd (step_at i ts log) in
  Forall thread_ok ts' /\
  map inv_args ts' = map inv_args ts /\
  ((finished ts' = finished ts /\ log' = log) \/
   (exists a, Permutation (finished ts') (a :: finished ts) /\
      log' = snd (wl_log_trampoline_to_rust_client (act_stack a) (act_fmt a)
                    (act_list a) log))).
Proof.
  revert i. induction ts as [|t ts IH]; intros i Hok; simpl.
  - split; [constructor|]. split; [reflexivity|]. now left.
  - inversion Hok as [|? ? Ht Hts]; subst.
    destruct i as [|i].
    + pose proof (thread_step_spec t log Ht) as Hstep.
      destruct (thread_step t log) as [t' log']. cbn [fst snd] in *.
      destruct Hstep as (Hok' & Hargs & Hlog).
      split; [now constructor|].
      split; [simpl; now rewrite Hargs|].
      unfold finished. simpl.
      destruct Hlog as [[Hret ->] | (Hnot & Hret & ->)].
      * left. rewrite Hret.
        destruct (is_returned t); simpl; now rewrite ?Hargs.
      * right. exists (inv_args t). rewrite Hret, Hnot. simpl.
        now rewrite Hargs.
    + specialize (IH i Hts).
      destruct (step_at i ts log) as [ts' log']. cbn [fst snd] in *.
      destruct IH as (Hok' & Hargs & Hlog).
      split; [now constructor|].
      split; [simpl; now rewrite Hargs|].
      unfold finished in *. simpl.
      destruct Hlog as [[Hfin ->] | (a & Hperm & ->)].
      * left. split; [|reflexivity].
        destruct (is_returned t); simpl; now rewrite Hfin.
      * right. exists a. split; [|reflexivity].
        destruct (is_returned t); simpl.
        -- rewrite Hperm. apply perm_swap.
        -- exact Hperm.
Qed.

(** Whatever the schedule, the logger's record is the one some order of the
    invocations that have returned leaves when they run one after the
    other. *)
Lemma run_schedule_serial (schedule : list nat) (log0 : sink_log)
    (ts : list invocation) (log : sink_log) :
  Forall thread_ok ts ->
  (exists order,
     Permutation order (finished ts) /\ log = sequential order log0) ->
  let ts' := fst (run_schedule schedule ts log) in
  let log' := snd (run_schedule schedule ts log) in
  map inv_args ts' = map inv_args ts /\
  exists order,
    Permutation order (finished ts') /\ log' = sequential order log0.
Proof.
  revert ts log. induction schedule as [|i schedule IH];
    intros ts log Hok Hserial; simpl.
  - now split.
  - pose proof (step_at_spec i ts log Hok) as Hstep.
    destruct (step_at i ts log) as [ts1 log1]. cbn [fst snd] in Hstep.
    destruct Hstep as (Hok1 & Hargs1 & Hlog1).
    assert (Hserial1 : exists order,
      Permutation order (finished ts1) /\ log1 = sequential order log0).
    { destruct Hserial as (order & Hperm & ->).
      destruct Hlog1 as [[Hfin ->] | (a & Hperm1 & ->)].
      - exists order. now rewrite Hfin.
      - exists (order ++ [a]). split.
        + rewrite Hperm1, <- Hperm. symmetry. apply Permutation_cons_append.
        + symmetry. apply sequential_snoc. }
    destruct (IH ts1 log1 Hok1 Hserial1) as (Hargs & Hfinal).
    split; [now rewrite Hargs | exact Hfinal].
Qed.

(** A step of the invocation behind [before] is a step of it alone. *)
Lemma step_at_app (before after : list invocation) (log : sink_log) :
  step_at (length before) (before ++ after) log =
  (before ++ fst (step_at 0 after log), snd (step_at 0 after log)).
Proof.
  induction before as [|t before IH].
  - cbn [length app]. now destruct (step_at 0 after log).
  - cbn [length app step_at]. now rewrite IH.
Qed.

Lemma step_at_head (t : invocation) (after : list invocation)
    (log : sink_log) :
  step_at 0 (t :: after) log =
  (fst (thread_step t log) :: after, snd (thread_step t log)).
Proof. simpl. now destruct (thread_step t log). Qed.

Lemma run_schedule_cons (i : nat) (schedule : list nat)
    (ts : list invocation) (log : sink_log) :
  run_schedule (i :: schedule) ts log =
  run_schedule schedule (fst (step_at i ts log)) (snd (step_at i ts log)).
Proof. simpl. now destruct (step_at i ts log). Qed.

(** Two steps take an invocation from its entry to its return. *)
Lemma two_steps_return (a : activation) (log : sink_log) :
  is_returned
    (fst (thread_step (fst (thread_step (enter a) log))
            (snd (thread_step (enter a) log)))) = true.
Proof.
  unfold thread_step at 2 3. cbn [enter inv_pc inv_buffer inv_args].
  destruct (vsnprintf (act_stack a) BUFFER_SIZE (act_fmt a) (act_list a))
    as [buffer ret].
  reflexivity.
Qed.

(** Some schedule lets every invocation return. *)
Lemma in_turn_completes (calls : list activation) (before : list invocation)
    (log : sink_log) :
  forallb is_returned before = true ->
  forallb is_returned
    (fst (run_schedule (in_turn (length before) (length calls))
            (before ++ map enter calls) log)) = true.
Proof.
  revert before log. induction calls as [|a calls IH]; intros before log Hb.
  - simpl. now rewrite app_nil_r.
  - cbn [length map in_turn].
    rewrite run_schedule_cons, step_at_app, step_at_head. cbn [fst snd].
    rewrite run_schedule_cons, step_at_app, step_at_head. cbn [fst snd].
    pose proof (two_steps_return a log) as Hret.
    set (t := fst (thread_step (fst (thread_step (enter a) log))
                     (snd (thread_step (enter a) log)))) in *.
    specialize (IH (before ++ [t])).
    rewrite length_app, Nat.add_1_r, <- app_assoc in IH. apply IH.
    rewrite forallb_app, Hb. simpl. now rewrite Hret.
Qed.

Lemma some_schedule_completes (calls : list activation) (log : sink_log) :
  exists schedule,
    forallb is_returned
      (fst (run_schedule schedule (map enter calls) log)) = true.
Proof.
  exists (in_turn 0 (length calls)).
  now apply (in_turn_completes calls []).
Qed.

(** C10: invocations that run at the same time, each with its own array,
    do not disturb each other when the logger takes its calls one at a
    time: for every schedule of their steps after which all have returned,
    the logger has received what it receives when the same invocations run
    one after the other in some order, that is, after what it held before,
    the one call each invocation makes when it runs alone. *)
Theorem concurrent_invocations_serialize (calls : list activation)
    (log0 : sink_log) (schedule : list nat) :
  forallb is_returned
    (fst (run_schedule schedule (map enter calls) log0)) = true ->
  exists order,
    Permutation order calls /\
    snd (run_schedule schedule (map enter calls) log0)
      = sequential order log0 /\
    sequential order log0 = log0 ++ flat_map alone order.
Proof.
  intros Hall.
  assert (Hok : Forall thread_ok (map enter calls)).
  { apply Forall_forall. intros t Hin. apply in_map_iff in Hin.
    destruct Hin as (a & <- & _). apply enter_ok. }
  assert (Hstart : exists order,
    Permutation order (finished (map enter calls)) /\
    log0 = sequential order log0).
  { exists []. rewrite finished_enter. now split. }
  destruct (run_schedule_serial schedule log0 _ _ Hok Hstart)
    as (Hargs & order & Hperm & Hlog).
  exists order. split; [|split].
  - rewrite Hperm, (finished_all _ Hall), Hargs, map_map. simpl.
    now rewrite map_id.
  - exact Hlog.
  - apply sequential_alone.
Qed.

End Concurrency.

(** ** The message in every case, and sequences of invocations *)

Section Messages.

Context {F : Formatter}.

Lemma alone_one_call (a : activation) : length (alone a) = 1%nat.
Proof.
  unfold alone, wl_log_trampoline_to_rust_client.
  destruct (vsnprintf (act_stack a) BUFFER_SIZE (act_fmt a) (act_list a))
    as [buffer ret].
  now destruct (ret <=? 0).
Qed.

Lemma flat_map_alone_length (calls : list activation) :
  length (flat_map alone calls) = length calls.
Proof.
  induction calls as [|a calls IH]; simpl.
  - reflexivity.
  - now rewrite length_app, alone_one_call, IH.
Qed.


(** X1: in every case the logger is called once, and what it reads is
    decided by the formatter's output alone: the first 255 characters of a
    non-empty output, up to the first NUL among them, read from the array;
    the format string, read through [fmt], when the output is empty or the
    formatting failed. *)
Theorem message_by_cases (stack fmt : bytes) (ap : va_list) (log : sink_log) :
  exists call,
    wl_log_trampoline_to_rust_client stack fmt ap log = (tt, log ++ [call]) /\
    match format (c_str fmt) ap with
    | Some (c :: out) =>
        sink_ptr call = to_buffer /\
        sink_msg call = c_str (firstn 255 (c :: out))
    | _ => sink_ptr call = to_fmt /\ sink_msg call = c_str fmt
    end.
Proof.
  destruct (format (c_str fmt) ap) as [[|c out]|] eqn:Hf.
  - eexists. split; [apply trampoline_not_rendered; now right|]. now split.
  - eexists. split; [apply (trampoline_rendered _ _ _ _ _ Hf); discriminate|].
    split; [reflexivity | apply rendered_message].
  - eexists. split; [apply trampoline_not_rendered; now left|]. now split.
Qed.

(** X2: the test [ret <= 0] does not keep every empty message from the
    logger.  When the output is not empty, the array is handed over, and the
    message read from it is empty exactly when the output starts with a NUL
    byte (as the conversion [%c] gives for the argument 0): the format string
    is not passed on then. *)
Theorem leading_nul_empties_message (stack fmt : bytes) (ap : va_list)
    (log : sink_log) (c : ascii) (out : bytes) :
  format (c_str fmt) ap = Some (c :: out) ->
  exists call,
    wl_log_trampoline_to_rust_client stack fmt ap log = (tt, log ++ [call]) /\
    sink_ptr call = to_buffer /\
    (sink_msg call = [] <-> c = NUL).
Proof.
  intros Hf.
  eexists. split; [apply (trampoline_rendered _ _ _ _ _ Hf); discriminate|].
  split; [reflexivity|].
  rewrite rendered_message.
  change (firstn 255 (c :: out)) with (c :: firstn 254 out).
  cbn [c_str]. destruct (Ascii.eqb c NUL) eqn:Hc.
  - apply Ascii.eqb_eq in Hc. now split.
  - apply Ascii.eqb_neq in Hc. split; [discriminate | contradiction].
Qed.


(** X4: while invocations run at the same time, at every moment of every
    schedule the logger has received, after what it held before, exactly one
    call for each invocation that has returned, the call that invocation
    makes alone, and none for those still running; no step changes the
    arguments of an invocation. *)
Theorem logger_calls_match_returns (calls : list activation)
    (log0 : sink_log) (schedule : list nat) :
  let ts := fst (run_schedule schedule (map enter calls) log0) in
  let log := snd (run_schedule schedule (map enter calls) log0) in
  map inv_args ts = calls /\
  length log = (length log0 + length (filter is_returned ts))%nat /\
  exists order,
    Permutation order (finished ts) /\ log = log0 ++ flat_map alone order.
Proof.
  intros ts log. subst ts log.
  assert (Hok : Forall thread_ok (map enter calls)).
  { apply Forall_forall. intros t Hin. apply in_map_iff in Hin.
    destruct Hin as (a & <- & _). apply enter_ok. }
  assert (Hstart : exists order,
    Permutation order (finished (map enter calls)) /\
    log0 = sequential order log0).
  { exists []. rewrite finished_enter. now split. }
  destruct (run_schedule_serial schedule log0 _ _ Hok Hstart)
    as (Hargs & order & Hperm & Hlog).
  split; [|split].
  - rewrite Hargs, map_map. simpl. apply map_id.
  - rewrite Hlog, sequential_alone, length_app, flat_map_alone_length.
    rewrite (Permutation_length Hperm). unfold finished.
    now rewrite length_map.
  - exists order. split; [exact Hperm|].
    rewrite Hlog. apply sequential_alone.
Qed.

End Messages.

(** ** The statements on [printf] *)

Example value_42 :
  messages value_fmt [VInt 42] = [bytes_of_string "value=42"].
Proof. vm_compute. reflexivity. Qed.

Example no_args_here : messages plain_fmt [] = [plain_fmt].
Proof. vm_compute. reflexivity. Qed.

Example more_than_255 : messages string_fmt [VStr long_text] = [repeat "a" 255].
Proof. vm_compute. reflexivity. Qed.

Example malformed_specifier :
  printf (bytes_of_string "%q") [] = None /\
  messages (bytes_of_string "%q") [] = [bytes_of_string "%q"].
Proof. split; vm_compute; reflexivity. Qed.

Example nul_in_the_output :
  printf (bytes_of_string "a%cb") [VInt 0] = Some ["a"; NUL; "b"] /\
  messages (bytes_of_string "a%cb") [VInt 0] = [["a"]].
Proof. split; vm_compute; reflexivity. Qed.

(** Output that fits: the format [value=%d] and the argument 42, whose
    result [value=42] has 8 characters. *)
Lemma substituted_result_delivered_witness :
  exists call,
    wl_log_trampoline_to_rust_client garbage value_fmt [VInt 42] []
      = (tt, [] ++ [call]) /\
    sink_ptr call = to_buffer /\
    prefix_of (bytes_of_string "value=42" ++ [NUL]) (sink_mem call) /\
    sink_msg call = bytes_of_string "value=42".
Proof.
  apply (substituted_result_delivered garbage value_fmt [VInt 42] []
           (bytes_of_string "value=42")).
  - vm_compute. reflexivity.
  - simpl. lia.
  - vm_compute. reflexivity.
Defined.

(** C1 as stated fails in two ways.  On an empty result: with the format
    [%s] and the empty string for argument, the substituted text is empty,
    of length 0 <= 255, and the logger reads [%s].  On a result with a NUL
    byte: with the format [a%cb] and the argument 0, the substituted text
    has the 3 characters [a], NUL, [b], and the logger reads [a]. *)
Lemma undelivered_result_counterexample :
  (substitute (c_str string_fmt) [VStr []] = Some [] /\
   (length (@nil ascii) <= 255)%nat /\
   exists call,
     wl_log_trampoline_to_rust_client garbage string_fmt [VStr []] []
       = (tt, [call]) /\
     sink_msg call = string_fmt /\
     sink_msg call <> []) /\
  (substitute (c_str nul_fmt) [VInt 0] = Some ["a"; NUL; "b"] /\
   (length ["a"; NUL; "b"] <= 255)%nat /\
   exists call,
     wl_log_trampoline_to_rust_client garbage nul_fmt [VInt 0] []
       = (tt, [call]) /\
     sink_msg call = ["a"] /\
     sink_msg call <> ["a"; NUL; "b"]).
Proof.
  split.
  - split; [vm_compute; reflexivity|].
    split; [simpl; lia|].
    eexists. split; [vm_compute; reflexivity|].
    split; [vm_compute; reflexivity | discriminate].
  - split; [vm_compute; reflexivity|].
    split; [simpl; lia|].
    eexists. split; [vm_compute; reflexivity|].
    split; [vm_compute; reflexivity | discriminate].
Qed.

(** Output that does not fit: the format [%s] and a string of 300
    letters. *)
Lemma truncation_is_not_failure_witness :
  exists call,
    wl_log_trampoline_to_rust_client garbage string_fmt [VStr long_text] []
      = (tt, [] ++ [call]) /\
    0 < snd (vsnprintf garbage BUFFER_SIZE string_fmt [VStr long_text]) /\
    sink_ptr call = to_buffer /\
    prefix_of (firstn 255 long_text ++ [NUL]) (sink_mem call) /\
    sink_msg call = firstn 255 long_text /\
    prefix_of (sink_msg call) long_text /\
    length (sink_msg call) = 255%nat.
Proof.
  apply (truncation_is_not_failure garbage string_fmt [VStr long_text] []
           long_text).
  - vm_compute. reflexivity.
  - vm_compute. lia.
  - unfold long_text, INT_MAX. rewrite repeat_length. lia.
  - vm_compute. reflexivity.
Defined.

Lemma c_str_repeat (c : ascii) (n : nat) :
  c <> NUL -> c_str (repeat c n) = repeat c n.
Proof.
  intros Hc. apply Ascii.eqb_neq in Hc.
  induction n as [|n IH]; simpl.
  - reflexivity.
  - now rewrite Hc, IH.
Qed.

Lemma substitute_string_fmt (p : bytes) :
  substitute (c_str string_fmt) [VStr p] = Some (c_str p).
Proof.
  change (render ["%"; "s"] [VStr p] = Some (c_str p)).
  cbn. now rewrite app_nil_r.
Qed.

Lemma huge_text_length : Z.of_nat (length huge_text) = INT_MAX + 1.
Proof.
  unfold huge_text. rewrite repeat_length. apply Z2Nat.id.
  unfold INT_MAX. lia.
Qed.

(** C3 as stated fails in two ways.  On a result too long to count: with
    the format [%s] and a string of [INT_MAX + 1] letters, the substituted
    text is that string, [vsnprintf] fails, the fallback is taken and the
    logger reads [%s].  On a result with a NUL byte among its first 255
    characters: with the format [%c%s], the argument 0 and a string of 300
    letters, the substituted text has 301 characters and the logger reads
    the empty message. *)
Lemma truncation_counterexample :
  (substitute (c_str string_fmt) [VStr huge_text] = Some huge_text /\
   (255 < length huge_text)%nat /\
   exists call,
     wl_log_trampoline_to_rust_client garbage string_fmt [VStr huge_text] []
       = (tt, [call]) /\
     sink_ptr call = to_fmt /\
     sink_msg call = string_fmt) /\
  (substitute (c_str nul_string_fmt) [VInt 0; VStr long_text]
     = Some (NUL :: long_text) /\
   (255 < length (NUL :: long_text))%nat /\
   exists call,
     wl_log_trampoline_to_rust_client garbage nul_string_fmt
       [VInt 0; VStr long_text] [] = (tt, [call]) /\
     sink_ptr call = to_buffer /\
     sink_msg call = []).
Proof.
  assert (Hs : substitute (c_str string_fmt) [VStr huge_text]
               = Some huge_text).
  { rewrite substitute_string_fmt. unfold huge_text.
    now rewrite c_str_repeat by discriminate. }
  pose proof huge_text_length as Hlen.
  split.
  - split; [exact Hs|].
    split; [unfold INT_MAX in Hlen; lia|].
    eexists. split.
    + apply (trampoline_not_rendered garbage string_fmt [VStr huge_text] []).
      left. apply (format_overflow _ _ _ Hs). lia.
    + split; reflexivity.
  - split; [vm_compute; reflexivity|].
    split; [vm_compute; lia|].
    eexists. split; [vm_compute; reflexivity|].
    split; reflexivity.
Qed.

(** A format without conversions: [no args here]. *)
Lemma plain_format_verbatim_witness :
  exists call,
    wl_log_trampoline_to_rust_client garbage plain_fmt [] []
      = (tt, [] ++ [call]) /\
    sink_msg call = c_str plain_fmt.
Proof.
  apply (plain_format_verbatim garbage plain_fmt []).
  - vm_compute. intuition discriminate.
  - vm_compute. lia.
Defined.

(** C5 as stated fails on a long format: 256 letters [a], no [%] among
    them and no argument; the logger reads the first 255 of them. *)
Lemma long_plain_format_counterexample :
  ~ In "%" (c_str long_fmt) /\
  exists call,
    wl_log_trampoline_to_rust_client garbage long_fmt [] [] = (tt, [call]) /\
    sink_msg call = repeat "a" 255 /\
    sink_msg call <> c_str long_fmt.
Proof.
  split.
  - intros Hin.
    replace (c_str long_fmt) with (repeat "a" 256) in Hin
      by (vm_compute; reflexivity).
    apply repeat_spec in Hin. discriminate.
  - eexists. split; [vm_compute; reflexivity|].
    split; [vm_compute; reflexivity|].
    intros Heq. apply (f_equal (@length ascii)) in Heq.
    vm_compute in Heq. discriminate.
Qed.

(** Empty output: the format [%s] and the empty string. *)
Lemma empty_result_takes_fallback_witness :
  snd (vsnprintf garbage BUFFER_SIZE string_fmt [VStr []]) = 0 /\
  exists call,
    wl_log_trampoline_to_rust_client garbage string_fmt [VStr []] []
      = (tt, [] ++ [call]) /\
    sink_ptr call = to_fmt /\
    sink_mem call = string_fmt /\
    sink_msg call = c_str string_fmt.
Proof.
  apply (empty_result_takes_fallback garbage string_fmt [VStr []] []).
  vm_compute. reflexivity.
Defined.

(** The array of 256 bytes after the format [%s] and a string of 300
    letters. *)
Lemma rendering_stays_in_buffer_witness :
  length garbage = BUFFER_SIZE /\
  (length (written BUFFER_SIZE string_fmt [VStr long_text]) <= BUFFER_SIZE)%nat
  /\
  length (fst (vsnprintf garbage BUFFER_SIZE string_fmt [VStr long_text]))
    = BUFFER_SIZE /\
  (length (c_str (fst (vsnprintf garbage BUFFER_SIZE string_fmt
                         [VStr long_text]))) < BUFFER_SIZE)%nat.
Proof.
  split; [reflexivity|].
  destruct (rendering_stays_in_buffer garbage string_fmt [VStr long_text] [])
    as (_ & Hlen & Hsize & _ & Hnul).
  - reflexivity.
  - split; [exact Hlen|]. split; [exact Hsize|].
    apply Hnul. vm_compute. reflexivity.
Defined.


Example interleaved_run :
  map sink_msg (snd (run_schedule [0; 1; 1; 0]%nat (map enter two_calls) []))
  = [plain_fmt; bytes_of_string "value=42"].
Proof. vm_compute. reflexivity. Qed.

(** Two invocations, the second of which takes both its steps between the
    two steps of the first. *)
Lemma concurrent_invocations_serialize_witness :
  exists order,
    Permutation order two_calls /\
    snd (run_schedule [0; 1; 1; 0]%nat (map enter two_calls) [])
      = sequential order [] /\
    sequential order [] = [] ++ flat_map alone order.
Proof.
  apply (concurrent_invocations_serialize two_calls [] [0; 1; 1; 0]%nat).
  vm_compute. reflexivity.
Defined.

(** Output that starts with a NUL byte: the format [%c] and the argument
    0. *)
Lemma leading_nul_empties_message_witness :
  exists call,
    wl_log_trampoline_to_rust_client garbage (bytes_of_string "%c")
      [VInt 0] [] = (tt, [] ++ [call]) /\
    sink_ptr call = to_buffer /\
    (sink_msg call = [] <-> NUL = NUL).
Proof.
  apply (leading_nul_empties_message garbage (bytes_of_string "%c")
           [VInt 0] [] NUL []).
  vm_compute. reflexivity.
Defined.
